(** * Buffer: a double-ended buffer with configurable push and pop ends

    Verification of [buffer.h] (class template [Buffer<_Typ>]).

    The class keeps a [std::deque<_Typ>] together with two direction
    selectors and a mutex.  Every public method takes a [std::lock_guard]
    for its whole body, so in a sequential execution each method is one
    atomic transformation of the object; that is how the methods are
    embedded below.  The mutex itself carries no data and is not part of
    the modelled state.  Allocation failure inside the containers is not
    modelled. *)

From Stdlib Require Import List ZArith Lia Bool Permutation.
Import ListNotations.

Set Implicit Arguments.

(** ** [enum class PushPopType]

    The two enumerators are the values of the type; each [switch] of the
    class has one case per enumerator and no default. *)

Inductive PushPopType : Type :=
| Front
| Rear.

(** The enumerator values written in the header. *)
Definition PushPopType_value (e : PushPopType) : Z :=
  match e with
  | Front => 0x00%Z
  | Rear => 0xFF%Z
  end.

(** Whether two selectors name the same end. *)
Definition same_end (a b : PushPopType) : bool :=
  match a, b with
  | Front, Front | Rear, Rear => true
  | _, _ => false
  end.

(** ** The standard containers used by the class

    A [std::deque] is the list of its elements from front to back; a
    [std::vector] is the list of its elements in index order. *)

Module Deque.
Section Ops.
Variable A : Type.

Definition emplace_front (d : list A) (x : A) : list A := x :: d.

Definition emplace_back (d : list A) (x : A) : list A := d ++ [x].

Definition empty (d : list A) : bool :=
  match d with
  | [] => true
  | _ :: _ => false
  end.

(** [front()] and [back()] are only defined on a non-empty deque.  The
    extra argument is what the model answers on an empty one; the class
    tests [empty()] before each use, and [front_nonempty] and
    [back_nonempty] below show that the argument is then irrelevant. *)
Definition front (d : list A) (undef : A) : A := hd undef d.

Definition back (d : list A) (undef : A) : A := last d undef.

Definition pop_front (d : list A) : list A := tl d.

Definition pop_back (d : list A) : list A := removelast d.

Definition clear (d : list A) : list A := [].

Definition size (d : list A) : nat := length d.
End Ops.
End Deque.

Module Vector.
Section Ops.
Variable A : Type.

Definition emplace_back (v : list A) (x : A) : list A := v ++ [x].
End Ops.
End Vector.

(** ** The reverse-iteration helper

    [reverse(iterable)] wraps the container so that a range-for visits
    [rbegin .. rend]; the visited sequence is the reversed list. *)
Definition reverse (A : Type) (iterable : list A) : list A := rev iterable.

(** ** [class Buffer] *)

Section BufferClass.
Variable T : Type.

Record Buffer : Type := mkBuffer {
  m_ePushType : PushPopType;
  m_ePopType : PushPopType;
  m_buffer : list T
}.

(** Assignment to the member [m_buffer], the other members kept. *)
Definition set_m_buffer (b : Buffer) (d : list T) : Buffer :=
  mkBuffer (m_ePushType b) (m_ePopType b) d.

(** Constructor: stores both selectors; [resize(0)] of the freshly built
    deque leaves it without elements. *)
Definition Buffer_new (ePushTyp ePopTyp : PushPopType) : Buffer :=
  mkBuffer ePushTyp ePopTyp [].

(** The constructor called without arguments: the defaults are
    [PushPopType::Rear] and [PushPopType::Front]. *)
Definition Buffer_default : Buffer := Buffer_new Rear Front.

(** [void push (_Typ &data)] *)
Definition push (b : Buffer) (data : T) : Buffer :=
  match m_ePushType b with
  | Front => set_m_buffer b (Deque.emplace_front (m_buffer b) data)
  | Rear => set_m_buffer b (Deque.emplace_back (m_buffer b) data)
  end.

(** [void push (std::vector<_Typ> &dataList)]: one range-for over the
    vector, the [switch] evaluated for every element. *)
Definition push_list (b : Buffer) (dataList : list T) : Buffer :=
  set_m_buffer b
    (fold_left
       (fun d data =>
          match m_ePushType b with
          | Front => Deque.emplace_front d data
          | Rear => Deque.emplace_back d data
          end)
       dataList (m_buffer b)).

(** [void pop (_Typ &data)]: the second component is the content of the
    caller's variable [data] after the call. *)
Definition pop (b : Buffer) (data : T) : Buffer * T :=
  if negb (Deque.empty (m_buffer b)) then
    match m_ePopType b with
    | Front =>
        let data' := Deque.front (m_buffer b) data in
        (set_m_buffer b (Deque.pop_front (m_buffer b)), data')
    | Rear =>
        let data' := Deque.back (m_buffer b) data in
        (set_m_buffer b (Deque.pop_back (m_buffer b)), data')
    end
  else (b, data).

(** [void pop (std::vector<_Typ> &dataList)]: the second component is
    the content of the caller's vector after the call. *)
Definition pop_list (b : Buffer) (dataList : list T) : Buffer * list T :=
  if negb (Deque.empty (m_buffer b)) then
    let dataList' :=
      match m_ePopType b with
      | Front =>
          fold_left (fun v parts => Vector.emplace_back v parts)
            (m_buffer b) dataList
      | Rear =>
          fold_left (fun v parts => Vector.emplace_back v parts)
            (reverse (m_buffer b)) dataList
      end in
    (set_m_buffer b (Deque.clear (m_buffer b)), dataList')
  else (b, dataList).

(** [size_t size(void)] *)
Definition size (b : Buffer) : nat := Deque.size (m_buffer b).

(** ** Sequences of calls *)

(** [push(p1); ...; push(pn)] *)
Fixpoint pushes (ps : list T) (b : Buffer) : Buffer :=
  match ps with
  | [] => b
  | p :: ps' => pushes ps' (push b p)
  end.

(** One single [pop] per element of [ds]; the element is what the
    caller's variable holds before that call, the result collects what
    it holds after it. *)
Fixpoint pops (ds : list T) (b : Buffer) : Buffer * list T :=
  match ds with
  | [] => (b, [])
  | d :: ds' =>
      let (b1, x) := pop b d in
      let (b2, xs) := pops ds' b1 in
      (b2, x :: xs)
  end.

(** A call of a public method with its arguments.  For the two [pop]
    overloads the argument is the content of the caller's output
    variable before the call. *)
Inductive Call : Type :=
| CallPush (data : T)
| CallPushList (dataList : list T)
| CallPop (data : T)
| CallPopList (dataList : list T)
| CallSize.

(** What the caller holds after a call: nothing for [push], the output
    variable for [pop], the returned number for [size]. *)
Inductive Outcome : Type :=
| OutVoid
| OutData (data : T)
| OutDataList (dataList : list T)
| OutSize (nSz : nat).

Definition call (c : Call) (b : Buffer) : Buffer * Outcome :=
  match c with
  | CallPush data => (push b data, OutVoid)
  | CallPushList dataList => (push_list b dataList, OutVoid)
  | CallPop data => let (b', data') := pop b data in (b', OutData data')
  | CallPopList dataList =>
      let (b', dataList') := pop_list b dataList in
      (b', OutDataList dataList')
  | CallSize => (b, OutSize (size b))
  end.

Fixpoint run (cs : list Call) (b : Buffer) : Buffer * list Outcome :=
  match cs with
  | [] => (b, [])
  | c :: cs' =>
      let (b1, o) := call c b in
      let (b2, os) := run cs' b1 in
      (b2, o :: os)
  end.

(** Number of items a call hands to the buffer. *)
Definition pushed_items (c : Call) : nat :=
  match c with
  | CallPush _ => 1
  | CallPushList dataList => length dataList
  | _ => 0
  end.

(** Number of items a call takes out of the buffer when it is made in
    state [b]: a single [pop] takes one exactly when it enters the
    non-empty branch, a drain takes what it appends to the caller's
    vector. *)
Definition removed_items (c : Call) (b : Buffer) : nat :=
  match c with
  | CallPop _ => if negb (Deque.empty (m_buffer b)) then 1 else 0
  | CallPopList dataList =>
      length (snd (pop_list b dataList)) - length dataList
  | _ => 0
  end.

Fixpoint pushed_total (cs : list Call) : nat :=
  match cs with
  | [] => 0
  | c :: cs' => pushed_items c + pushed_total cs'
  end.

Fixpoint removed_total (cs : list Call) (b : Buffer) : nat :=
  match cs with
  | [] => 0
  | c :: cs' => removed_items c b + removed_total cs' (fst (call c b))
  end.

Definition is_pop_call (c : Call) : bool :=
  match c with
  | CallPop _ | CallPopList _ => true
  | _ => false
  end.

(** The output variable of a [pop] call exactly as the caller passed it. *)
Definition untouched (c : Call) : Outcome :=
  match c with
  | CallPop data => OutData data
  | CallPopList dataList => OutDataList dataList
  | CallSize => OutSize 0
  | _ => OutVoid
  end.

(** A rule by which a caller of the single [pop] would recognise the
    empty case from what it passed in and what it holds afterwards. *)
Definition tells_empty (signal : T -> T -> bool) : Prop :=
  forall (b : Buffer) (data : T),
    signal data (snd (pop b data)) = Deque.empty (m_buffer b).

(** A rule that marks the outcome of every single [pop] on an empty
    buffer, however often it is repeated, and of no [pop] that delivers
    an item. *)
Definition always_signals_no_value (no_value : T -> T -> bool) : Prop :=
  (forall (b : Buffer) (ds : list T),
      m_buffer b = [] ->
      Forall2 (fun d x => no_value d x = true) ds (snd (pops ds b)))
  /\ (forall (b : Buffer) (d : T),
        Deque.empty (m_buffer b) = false ->
        no_value d (snd (pop b d)) = false).

(** The sequence the range-for of the drain visits: the deque itself for
    a front pop end, the deque under [reverse] for a rear pop end. *)
Definition pop_order (b : Buffer) : list T :=
  match m_ePopType b with
  | Front => m_buffer b
  | Rear => reverse (m_buffer b)
  end.

(** The items a call hands to the buffer, in argument order. *)
Definition pushed_data (c : Call) : list T :=
  match c with
  | CallPush data => [data]
  | CallPushList dataList => dataList
  | _ => []
  end.

(** The items a call made in state [b] hands back to the caller: what a
    single [pop] assigns in its non-empty branch, and what a drain appends
    behind the vector's previous content. *)
Definition delivered_data (c : Call) (b : Buffer) : list T :=
  match c with
  | CallPop data =>
      if negb (Deque.empty (m_buffer b)) then [snd (pop b data)] else []
  | CallPopList dataList =>
      skipn (length dataList) (snd (pop_list b dataList))
  | _ => []
  end.

Fixpoint pushed_data_total (cs : list Call) : list T :=
  match cs with
  | [] => []
  | c :: cs' => pushed_data c ++ pushed_data_total cs'
  end.

Fixpoint delivered_data_total (cs : list Call) (b : Buffer) : list T :=
  match cs with
  | [] => []
  | c :: cs' =>
      delivered_data c b ++ delivered_data_total cs' (fst (call c b))
  end.

End BufferClass.

Arguments Buffer_new {T} ePushTyp ePopTyp.
Arguments Buffer_default {T}.
Arguments CallSize {T}.
Arguments OutVoid {T}.
Arguments OutSize {T} nSz.

(** * Facts about the containers *)

Section ContainerFacts.
Variable A : Type.

Lemma front_nonempty (d : list A) (u v : A) :
  d <> [] -> Deque.front d u = Deque.front d v.
Proof. destruct d as [|x d]; [congruence | reflexivity]. Qed.

Lemma back_nonempty (d : list A) (u v : A) :
  d <> [] -> Deque.back d u = Deque.back d v.
Proof.
  unfold Deque.back.
  induction d as [|x d IH]; [congruence|].
  intros _. destruct d as [|y d]; [reflexivity|].
  simpl in *. apply IH. discriminate.
Qed.

Lemma empty_true_iff (d : list A) : Deque.empty d = true <-> d = [].
Proof. destruct d; simpl; split; congruence. Qed.

Lemma empty_snoc (d : list A) (x : A) : Deque.empty (d ++ [x]) = false.
Proof. destruct d; reflexivity. Qed.

Lemma back_snoc (d : list A) (x u : A) : Deque.back (d ++ [x]) u = x.
Proof. unfold Deque.back. apply last_last. Qed.

Lemma pop_back_snoc (d : list A) (x : A) : Deque.pop_back (d ++ [x]) = d.
Proof. unfold Deque.pop_back. apply removelast_last. Qed.

Lemma size_pop_back (d : list A) :
  d <> [] -> S (Deque.size (Deque.pop_back d)) = Deque.size d.
Proof.
  intros H. destruct (exists_last H) as (d' & y & ->).
  rewrite pop_back_snoc. unfold Deque.size.
  rewrite length_app. simpl. lia.
Qed.

(** The loop [for (auto &parts : src) dataList.emplace_back(parts)]. *)
Lemma copy_loop (src v : list A) :
  fold_left (fun v parts => Vector.emplace_back v parts) src v = v ++ src.
Proof.
  revert v. induction src as [|x src IH]; intros v; simpl.
  - now rewrite app_nil_r.
  - rewrite IH. unfold Vector.emplace_back. now rewrite <- app_assoc.
Qed.

(** The loop of the batch [push], for each of the two selectors. *)
Lemma push_loop (e : PushPopType) (xs d : list A) :
  fold_left
    (fun d data =>
       match e with
       | Front => Deque.emplace_front d data
       | Rear => Deque.emplace_back d data
       end) xs d
  = match e with
    | Front => rev xs ++ d
    | Rear => d ++ xs
    end.
Proof.
  revert d. induction xs as [|x xs IH]; intros d; simpl.
  - destruct e; [reflexivity | now rewrite app_nil_r].
  - rewrite IH. destruct e.
    + unfold Deque.emplace_front. now rewrite <- app_assoc.
    + unfold Deque.emplace_back. now rewrite <- app_assoc.
Qed.
End ContainerFacts.

(** * Facts about the methods *)

Section BufferFacts.
Variable T : Type.
Implicit Types (b : Buffer T) (d l ps ds : list T) (e p q : PushPopType).

Lemma push_spec e q d (x : T) :
  push (mkBuffer e q d) x
  = mkBuffer e q (match e with Front => x :: d | Rear => d ++ [x] end).
Proof. destruct e; reflexivity. Qed.

Lemma pushes_spec e q ps : forall d,
  pushes ps (mkBuffer e q d)
  = mkBuffer e q (match e with Front => rev ps ++ d | Rear => d ++ ps end).
Proof.
  induction ps as [|x ps IH]; intros d; cbn [pushes].
  - destruct e; [reflexivity | now rewrite app_nil_r].
  - rewrite push_spec, IH. destruct e; simpl; now rewrite <- app_assoc.
Qed.

Lemma push_list_spec e q d xs :
  push_list (mkBuffer e q d) xs
  = mkBuffer e q (match e with Front => rev xs ++ d | Rear => d ++ xs end).
Proof.
  unfold push_list, set_m_buffer; simpl. now rewrite push_loop.
Qed.

Lemma pop_nil p q (data : T) :
  pop (mkBuffer p q []) data = (mkBuffer p q [], data).
Proof. reflexivity. Qed.

Lemma pop_Front_cons p (x : T) d (data : T) :
  pop (mkBuffer p Front (x :: d)) data = (mkBuffer p Front d, x).
Proof. reflexivity. Qed.

Lemma pop_Rear_snoc p d (x data : T) :
  pop (mkBuffer p Rear (d ++ [x])) data = (mkBuffer p Rear d, x).
Proof.
  unfold pop, set_m_buffer; simpl.
  now rewrite empty_snoc, back_snoc, pop_back_snoc.
Qed.

Lemma pop_list_spec p q d (out : list T) :
  pop_list (mkBuffer p q d) out
  = (mkBuffer p q [],
     out ++ match q with Front => d | Rear => rev d end).
Proof.
  unfold pop_list, set_m_buffer, reverse; simpl.
  destruct d as [|x d].
  - simpl. destruct q; now rewrite app_nil_r.
  - simpl negb. cbv iota. destruct q; now rewrite copy_loop.
Qed.

Lemma pops_Front p d : forall ds,
  length ds = length d ->
  pops ds (mkBuffer p Front d) = (mkBuffer p Front [], d).
Proof.
  induction d as [|x d IH]; intros [|a ds] H; simpl in H; try discriminate.
  - reflexivity.
  - cbn [pops]. rewrite pop_Front_cons, IH by lia. reflexivity.
Qed.

Lemma pops_Rear p d : forall ds,
  length ds = length d ->
  pops ds (mkBuffer p Rear d) = (mkBuffer p Rear [], rev d).
Proof.
  induction d as [|x d IH] using rev_ind; intros [|a ds] H;
    rewrite ?length_app in H; simpl in H; try lia.
  - reflexivity.
  - cbn [pops]. rewrite pop_Rear_snoc, IH by lia.
    now rewrite rev_unit.
Qed.

Lemma pops_nil p q ds :
  pops ds (mkBuffer p q []) = (mkBuffer p q [], ds).
Proof.
  induction ds as [|a ds IH]; [reflexivity|].
  cbn [pops]. rewrite pop_nil, IH. reflexivity.
Qed.

Lemma pop_size b (data : T) :
  size (fst (pop b data)) + removed_items (CallPop data) b = size b.
Proof.
  destruct b as [p q d]. unfold pop, removed_items, size; cbn [m_buffer].
  destruct d as [|x d]; [reflexivity|].
  cbn [Deque.empty negb m_ePopType].
  destruct q; cbn [fst set_m_buffer m_buffer].
  - unfold Deque.size, Deque.pop_front. simpl. lia.
  - rewrite <- (size_pop_back (d := x :: d)) by discriminate. lia.
Qed.
End BufferFacts.

(** * Sequences of calls: bookkeeping lemmas *)

Section RunFacts.
Variable T : Type.
Implicit Types (b : Buffer T) (c : Call T) (cs : list (Call T)).

Lemma run_cons c cs b :
  run (c :: cs) b
  = (fst (run cs (fst (call c b))),
     snd (call c b) :: snd (run cs (fst (call c b)))).
Proof.
  cbn [run]. destruct (call c b) as [b1 o]; cbn [fst snd].
  destruct (run cs b1); reflexivity.
Qed.

Lemma call_selectors c b :
  m_ePushType (fst (call c b)) = m_ePushType b
  /\ m_ePopType (fst (call c b)) = m_ePopType b.
Proof.
  destruct b as [p q d], c as [x | xs | x | out |]; cbn [call].
  - rewrite push_spec. now split.
  - rewrite push_list_spec. now split.
  - unfold pop; cbn [m_buffer m_ePopType].
    destruct (negb (Deque.empty d)); [destruct q|]; now split.
  - rewrite pop_list_spec. now split.
  - now split.
Qed.

Lemma call_size c b :
  size (fst (call c b)) + removed_items c b = size b + pushed_items c.
Proof.
  destruct c as [x | xs | x | out |]; cbn [pushed_items].
  - destruct b as [p q d]. cbn [call fst removed_items].
    rewrite push_spec. unfold size, Deque.size; cbn [m_buffer].
    destruct p; [simpl | rewrite length_app; simpl]; lia.
  - destruct b as [p q d]. cbn [call fst removed_items].
    rewrite push_list_spec. unfold size, Deque.size; cbn [m_buffer].
    destruct p; rewrite length_app, ?length_rev; lia.
  - cbn [call]. pose proof (pop_size b x) as H.
    destruct (pop b x) as [b' x']; cbn [fst] in *. lia.
  - destruct b as [p q d]. cbn [call removed_items].
    rewrite pop_list_spec. cbn [fst snd].
    unfold size, Deque.size; cbn [m_buffer].
    rewrite length_app. destruct q; rewrite ?length_rev; simpl; lia.
  - cbn [call fst removed_items]. lia.
Qed.

Lemma run_size cs : forall b,
  size (fst (run cs b)) + removed_total cs b = size b + pushed_total cs.
Proof.
  induction cs as [|c cs IH]; intros b.
  - cbn. lia.
  - rewrite run_cons. cbn [fst removed_total pushed_total].
    specialize (IH (fst (call c b))).
    pose proof (call_size c b). lia.
Qed.

Lemma run_selectors cs : forall b,
  m_ePushType (fst (run cs b)) = m_ePushType b
  /\ m_ePopType (fst (run cs b)) = m_ePopType b.
Proof.
  induction cs as [|c cs IH]; intros b.
  - now split.
  - rewrite run_cons. cbn [fst].
    destruct (IH (fst (call c b))) as [-> ->]. apply call_selectors.
Qed.

Lemma call_pop_on_empty c b :
  m_buffer b = [] -> is_pop_call c = true -> call c b = (b, untouched c).
Proof.
  destruct b as [p q d]; cbn [m_buffer]; intros -> H.
  destruct c; try discriminate; reflexivity.
Qed.
End RunFacts.

(** * The specified properties *)

Section Properties.
Variable T : Type.
Implicit Types (b : Buffer T) (ps ds out : list T).

(** C1: with the default configuration (push at the rear, pop at the
    front), [n] single pushes [p1 .. pn] on a fresh buffer followed by
    [n] single pops deliver [p1 .. pn] in that order, whatever the
    caller's variables held before the pops, and leave the buffer as it
    was constructed. *)
Theorem fifo_default_order ps ds :
  length ds = length ps ->
  pops ds (pushes ps Buffer_default) = (Buffer_default, ps).
Proof.
  intros H. unfold Buffer_default, Buffer_new.
  rewrite pushes_spec. cbn [app]. now apply pops_Front.
Qed.

(** C5: with push at the rear and pop at the rear, [n] single pushes
    [p1 .. pn] on a fresh buffer followed by [n] single pops deliver
    [pn .. p1], most recent first. *)
Theorem lifo_rear_rear_order ps ds :
  length ds = length ps ->
  pops ds (pushes ps (Buffer_new Rear Rear))
  = (Buffer_new Rear Rear, rev ps).
Proof.
  intros H. unfold Buffer_new.
  rewrite pushes_spec. cbn [app]. now apply pops_Rear.
Qed.

(** C2: in every state and configuration, draining into an empty vector
    delivers exactly what [size b] successive single pops deliver, ends
    in the same state as they do, and that state has size 0. *)
Theorem drain_equals_repeated_pop b ds :
  length ds = size b ->
  pop_list b [] = pops ds b /\ size (fst (pop_list b [])) = 0.
Proof.
  destruct b as [p q d]. unfold size, Deque.size; cbn [m_buffer].
  intros H. rewrite pop_list_spec. cbn [app fst m_buffer length].
  split; [|reflexivity].
  destruct q; [now rewrite pops_Front | now rewrite pops_Rear].
Qed.

(** C10: the drain appends to the caller's vector without clearing it:
    afterwards the vector is its previous content followed by the
    drained items (the deque front to back for a front pop end, back to
    front for a rear pop end), so the previous content is its prefix. *)
Theorem pop_list_appends b out :
  snd (pop_list b out) = out ++ snd (pop_list b [])
  /\ snd (pop_list b [])
     = match m_ePopType b with
       | Front => m_buffer b
       | Rear => rev (m_buffer b)
       end
  /\ firstn (length out) (snd (pop_list b out)) = out.
Proof.
  destruct b as [p q d]. rewrite !pop_list_spec. cbn [snd app m_ePopType m_buffer].
  repeat split.
  rewrite firstn_app, Nat.sub_diag, firstn_all. cbn [firstn].
  now rewrite app_nil_r.
Qed.

(** C8: no method changes the two selectors: after any single call, and
    after any sequence of calls, [m_ePushType] and [m_ePopType] are what
    the constructor stored. *)
Theorem selectors_immutable (ePushTyp ePopTyp : PushPopType)
    (cs : list (Call T)) b (c : Call T) :
  m_ePushType (Buffer_new (T := T) ePushTyp ePopTyp) = ePushTyp
  /\ m_ePopType (Buffer_new (T := T) ePushTyp ePopTyp) = ePopTyp
  /\ m_ePushType (fst (call c b)) = m_ePushType b
  /\ m_ePopType (fst (call c b)) = m_ePopType b
  /\ m_ePushType (fst (run cs b)) = m_ePushType b
  /\ m_ePopType (fst (run cs b)) = m_ePopType b.
Proof.
  destruct (call_selectors c b), (run_selectors cs b).
  repeat split; assumption.
Qed.

(** C7: after any sequence of calls on a fresh buffer, [size] is the
    number of items pushed minus the number of items removed; a single
    push raises the size by exactly one, and a single pop on a non-empty
    buffer lowers it by exactly one. *)
Theorem size_accuracy (ePushTyp ePopTyp : PushPopType)
    (cs : list (Call T)) b (data : T) :
  let fresh := Buffer_new (T := T) ePushTyp ePopTyp in
  size (fst (run cs fresh)) = pushed_total cs - removed_total cs fresh
  /\ removed_total cs fresh <= pushed_total cs
  /\ size (push b data) = size b + 1
  /\ (Deque.empty (m_buffer b) = false ->
      size (fst (pop b data)) + 1 = size b).
Proof.
  intros fresh. pose proof (run_size cs fresh) as Hrun.
  change (size fresh) with 0 in Hrun.
  pose proof (call_size (CallPush data) b) as Hpush.
  pose proof (pop_size b data) as Hpop.
  cbn [call fst removed_items pushed_items] in Hpush, Hpop.
  repeat split; try lia.
  intros Hne. rewrite Hne in Hpop. cbn [negb] in Hpop. lia.
Qed.

(** C4 (as amended): a single pop on an empty buffer changes neither the
    buffer nor the caller's variable, which keeps the value it had
    before the call; that is also what the variable would hold had the
    buffer contained this very value as its only item. *)
Theorem pop_empty_leaves_output b (data : T) :
  m_buffer b = [] ->
  pop b data = (b, data)
  /\ snd (pop (push b data) data) = snd (pop b data).
Proof.
  destruct b as [p q d]; cbn [m_buffer]; intros ->.
  rewrite push_spec, pop_nil. split; [reflexivity|].
  destruct p, q; reflexivity.
Qed.

(** C6 (as amended): on an empty buffer a drain leaves the caller's
    vector and the buffer as they are, and any sequence of single pops
    and drains leaves the buffer unchanged and every output variable as
    the caller passed it. *)
Theorem empty_pop_idempotent b out (cs : list (Call T)) :
  m_buffer b = [] ->
  forallb (@is_pop_call T) cs = true ->
  pop_list b out = (b, out)
  /\ pop_list b [] = (b, [])
  /\ run cs b = (b, map (@untouched T) cs).
Proof.
  intros Hb Hcs. split; [|split].
  - destruct b as [p q d]; cbn [m_buffer] in Hb; subst d. reflexivity.
  - destruct b as [p q d]; cbn [m_buffer] in Hb; subst d. reflexivity.
  - induction cs as [|c cs IH]; [reflexivity|].
    cbn [forallb] in Hcs. apply andb_true_iff in Hcs as [Hc Hcs].
    rewrite run_cons, (@call_pop_on_empty T c b Hb Hc). cbn [fst snd map].
    rewrite (IH Hcs). reflexivity.
Qed.
End Properties.

(** * Batch push *)

(** C3: the batch push inserts the items of its argument one after the
    other at the push end, so it reaches the same state as the single
    pushes [push(x1); ...; push(xn)] and no later sequence of calls tells
    the two apart; with both ends at the front, the batch [1, 2, 3]
    followed by three single pops delivers [3, 2, 1]. *)
Theorem push_list_as_single_pushes :
  (forall (T : Type) (b : Buffer T) (xs : list T),
      push_list b xs = pushes xs b
      /\ m_buffer (push_list b xs)
         = match m_ePushType b with
           | Front => rev xs ++ m_buffer b
           | Rear => m_buffer b ++ xs
           end
      /\ forall cs : list (Call T),
          run cs (push_list b xs) = run cs (pushes xs b))
  /\ (forall d1 d2 d3 : Z,
        pops [d1; d2; d3] (push_list (Buffer_new Front Front) [1; 2; 3]%Z)
        = (Buffer_new Front Front, [3; 2; 1]%Z)).
Proof.
  split.
  - intros T [p q d] xs.
    assert (E : push_list (mkBuffer p q d) xs = pushes xs (mkBuffer p q d))
      by now rewrite push_list_spec, pushes_spec.
    split; [exact E|]. split.
    + rewrite push_list_spec. reflexivity.
    + intros cs. now rewrite E.
  - intros d1 d2 d3. reflexivity.
Qed.

(** * Concrete runs *)

Example scenario_default_drain :
  let b := push (push (push Buffer_default 1%Z) 2%Z) 3%Z in
  pop_list b [] = (Buffer_default, [1; 2; 3]%Z)
  /\ size (fst (pop_list b [])) = 0.
Proof. split; reflexivity. Qed.

Example scenario_front_rear :
  let b := push (push (Buffer_new Front Rear) 1%Z) 2%Z in
  pops [0; 0; 0]%Z b = (Buffer_new Front Rear, [1; 2; 0]%Z).
Proof. reflexivity. Qed.

Example scenario_enumerator_values :
  PushPopType_value Front = 0%Z /\ PushPopType_value Rear = 255%Z.
Proof. split; reflexivity. Qed.

Lemma fifo_default_order_witness :
  length [0; 0; 0]%Z = length [1; 2; 3]%Z
  /\ pops [0; 0; 0]%Z (pushes [1; 2; 3]%Z Buffer_default)
     = (Buffer_default, [1; 2; 3]%Z).
Proof.
  split; [reflexivity | apply fifo_default_order; reflexivity].
Defined.

Lemma lifo_rear_rear_order_witness :
  length [0; 0; 0]%Z = length [1; 2; 3]%Z
  /\ pops [0; 0; 0]%Z (pushes [1; 2; 3]%Z (Buffer_new Rear Rear))
     = (Buffer_new Rear Rear, [3; 2; 1]%Z).
Proof.
  split; [reflexivity|].
  apply (lifo_rear_rear_order [1; 2; 3]%Z [0; 0; 0]%Z). reflexivity.
Defined.

Lemma drain_equals_repeated_pop_witness :
  let b := pushes [1; 2; 3]%Z (Buffer_new Front Rear) in
  length [0; 0; 0]%Z = size b
  /\ pop_list b [] = pops [0; 0; 0]%Z b
  /\ size (fst (pop_list b [])) = 0.
Proof.
  intros b. split; [reflexivity|].
  apply (drain_equals_repeated_pop b [0; 0; 0]%Z). reflexivity.
Defined.

Lemma size_accuracy_witness :
  let b := push Buffer_default 5%Z in
  Deque.empty (m_buffer b) = false
  /\ size (fst (pop b 0%Z)) + 1 = size b.
Proof.
  intros b. split; [reflexivity|].
  destruct (size_accuracy Rear Front [] b 0%Z) as (_ & _ & _ & H).
  apply H. reflexivity.
Defined.

Lemma pop_empty_leaves_output_witness :
  m_buffer (Buffer_default (T := Z)) = []
  /\ pop Buffer_default 7%Z = (Buffer_default, 7%Z).
Proof.
  split; [reflexivity|].
  apply (pop_empty_leaves_output Buffer_default 7%Z). reflexivity.
Defined.

Lemma empty_pop_idempotent_witness :
  let b := Buffer_new (T := Z) Rear Rear in
  let cs := [CallPop 1%Z; CallPopList [2%Z]; CallPop 3%Z] in
  m_buffer b = []
  /\ forallb (@is_pop_call Z) cs = true
  /\ run cs b = (b, [OutData 1%Z; OutDataList [2%Z]; OutData 3%Z]).
Proof.
  intros b cs. split; [reflexivity|]. split; [reflexivity|].
  apply (empty_pop_idempotent b [] cs); reflexivity.
Defined.

(** * Where the single pop departs from an explicit result *)

(** C4 fails on the code: popping the empty default buffer with a variable
    holding 7 leaves 7 in it, and no rule over what the caller passed and
    what it holds afterwards recognises the empty case. *)
Lemma pop_gives_no_empty_signal :
  snd (pop (Buffer_default (T := Z)) 7%Z) = 7%Z
  /\ ~ exists signal : Z -> Z -> bool, tells_empty signal.
Proof.
  split; [reflexivity|].
  intros [signal H].
  pose proof (H Buffer_default 7%Z) as H1.
  pose proof (H (push Buffer_default 7%Z) 7%Z) as H2.
  cbn in H1, H2. congruence.
Qed.

(** C6 fails on the code in its claim of a signal: two pops on the empty
    default buffer with a variable holding 7 are observed exactly as two
    pops that deliver the items 7 and 7, so nothing marks them as having
    delivered no value. *)
Lemma repeated_empty_pop_gives_no_signal :
  snd (pops [7; 7]%Z Buffer_default)
  = snd (pops [7; 7]%Z (pushes [7; 7]%Z Buffer_default))
  /\ ~ exists no_value : Z -> Z -> bool, always_signals_no_value no_value.
Proof.
  split; [reflexivity|].
  intros [no_value [Hempty Hitem]].
  pose proof (Hempty Buffer_default [7%Z] eq_refl) as H1.
  pose proof (Hitem (push Buffer_default 7%Z) 7%Z eq_refl) as H2.
  cbn in H1, H2. inversion H1; subst. congruence.
Qed.

(** * Further properties of the methods *)

Section PopsInAnyState.
Variable T : Type.
Implicit Types (b : Buffer T) (d ps ds out : list T) (p q : PushPopType).

Lemma pops_Front_any p : forall ds d,
  pops ds (mkBuffer p Front d)
  = (mkBuffer p Front (skipn (length ds) d),
     firstn (length ds) d ++ skipn (length d) ds).
Proof.
  induction ds as [|a ds IH]; intros d.
  - cbn [pops length skipn firstn app]. now rewrite skipn_nil.
  - destruct d as [|x d].
    + rewrite pops_nil. reflexivity.
    + cbn [pops]. rewrite pop_Front_cons, IH. reflexivity.
Qed.

Lemma pops_Rear_any p : forall ds d,
  pops ds (mkBuffer p Rear d)
  = (mkBuffer p Rear (firstn (length d - length ds) d),
     firstn (length ds) (rev d) ++ skipn (length d) ds).
Proof.
  induction ds as [|a ds IH]; intros d.
  - cbn [pops length firstn app]. now rewrite Nat.sub_0_r, firstn_all, skipn_nil.
  - destruct d as [|y d _] using rev_ind.
    + rewrite pops_nil. reflexivity.
    + cbn [pops]. rewrite pop_Rear_snoc, IH.
      rewrite rev_unit, length_app. cbn [length].
      replace (length d + 1 - S (length ds)) with (length d - length ds) by lia.
      replace (length d + 1) with (S (length d)) by lia.
      cbn [firstn skipn app].
      rewrite firstn_app.
      replace (length d - length ds - length d) with 0 by lia.
      cbn [firstn]. now rewrite app_nil_r.
Qed.

Lemma pushes_app ps qs : forall b,
  pushes (ps ++ qs) b = pushes qs (pushes ps b).
Proof.
  induction ps as [|x ps IH]; intros b; [reflexivity|].
  cbn [app pushes]. apply IH.
Qed.

Lemma pushes_selectors ps b :
  m_ePushType (pushes ps b) = m_ePushType b
  /\ m_ePopType (pushes ps b) = m_ePopType b.
Proof. destruct b as [p q d]. rewrite pushes_spec. now split. Qed.

Lemma pop_push_same_end b (x a : T) :
  m_ePushType b = m_ePopType b -> pop (push b x) a = (b, x).
Proof.
  destruct b as [p q d]; cbn [m_ePushType m_ePopType]; intros ->.
  rewrite push_spec. destruct q.
  - apply pop_Front_cons.
  - apply pop_Rear_snoc.
Qed.
End PopsInAnyState.

Section MoreProperties.
Variable T : Type.
Implicit Types (b : Buffer T) (d ps ds out : list T) (p q : PushPopType).

(** X1: when the push end and the pop end are the same, pushing
    [p1 .. pn] onto a buffer in any state and then popping [n] times
    delivers [pn .. p1] and restores the buffer exactly as it was before
    the pushes. *)
Theorem stack_round_trip b ps : forall ds,
  m_ePushType b = m_ePopType b ->
  length ds = length ps ->
  pops ds (pushes ps b) = (b, rev ps).
Proof.
  induction ps as [|x ps IH] using rev_ind; intros ds Hsame Hlen.
  - destruct ds; [reflexivity | discriminate].
  - rewrite length_app in Hlen. cbn [length] in Hlen.
    destruct ds as [|a ds]; cbn [length] in Hlen; [lia|].
    rewrite pushes_app, rev_unit. cbn [pushes pops].
    destruct (pushes_selectors ps b) as [Hp Hq].
    rewrite pop_push_same_end by congruence.
    rewrite IH by (assumption || lia). reflexivity.
Qed.

(** X2: when the push end and the pop end differ, pushing [p1 .. pn] onto
    a buffer in any state and then popping until it is empty delivers the
    items that were already stored, in drain order, followed by
    [p1 .. pn]; the buffer ends empty. *)
Theorem queue_order_any_state b ps ds :
  m_ePushType b <> m_ePopType b ->
  length ds = size b + length ps ->
  pops ds (pushes ps b) = (set_m_buffer b [], pop_order b ++ ps).
Proof.
  destruct b as [p q d]. unfold size, Deque.size, pop_order, set_m_buffer, reverse.
  cbn [m_ePushType m_ePopType m_buffer]. intros Hne Hlen.
  rewrite pushes_spec. destruct p, q; try congruence.
  - rewrite pops_Rear by (rewrite length_app, length_rev; lia).
    now rewrite rev_app_distr, rev_involutive.
  - rewrite pops_Front by (rewrite length_app; lia). reflexivity.
Qed.

(** X3: when the two ends differ and the buffer is not empty, a push and
    a following pop can be exchanged: the pop delivers the same item
    either way and both orders end in the same state. *)
Theorem pop_after_push_commutes b (x a : T) :
  m_ePushType b <> m_ePopType b ->
  Deque.empty (m_buffer b) = false ->
  pop (push b x) a = (push (fst (pop b a)) x, snd (pop b a)).
Proof.
  destruct b as [p q d]. cbn [m_ePushType m_ePopType m_buffer].
  intros Hne Hd. rewrite push_spec. destruct p, q; try congruence.
  - destruct d as [|y d _] using rev_ind; [discriminate|].
    rewrite app_comm_cons, !pop_Rear_snoc. cbn [fst snd].
    now rewrite push_spec.
  - destruct d as [|y d]; [discriminate|].
    rewrite <- app_comm_cons, !pop_Front_cons. cbn [fst snd].
    now rewrite push_spec.
Qed.

(** X4: any number of single pops, in any state: the pops deliver the
    leading items of the drain order, as many as there are pops; pops made
    after the buffer ran empty leave the caller's variables as passed; and
    the items that stay are the untouched rest of the deque. *)
Theorem pops_any_number b ds :
  pops ds b
  = (set_m_buffer b
       (match m_ePopType b with
        | Front => skipn (length ds) (m_buffer b)
        | Rear => firstn (size b - length ds) (m_buffer b)
        end),
     firstn (length ds) (pop_order b) ++ skipn (size b) ds).
Proof.
  destruct b as [p q d]. unfold size, Deque.size, pop_order, set_m_buffer, reverse.
  cbn [m_ePushType m_ePopType m_buffer].
  destruct q; [apply pops_Front_any | apply pops_Rear_any].
Qed.

(** X5: batch pushes compose: pushing [xs] and then [ys] is pushing
    [xs ++ ys] at once, pushing the empty vector changes nothing, and
    pushing a one-element vector is the single push. *)
Theorem push_list_composes b (xs ys : list T) (x : T) :
  push_list (push_list b xs) ys = push_list b (xs ++ ys)
  /\ push_list b [] = b
  /\ push_list b [x] = push b x.
Proof.
  destruct b as [p q d]. rewrite !push_list_spec, push_spec.
  split; [|split].
  - destruct p; [now rewrite rev_app_distr, app_assoc | now rewrite app_assoc].
  - destruct p; [reflexivity | now rewrite app_nil_r].
  - destruct p; reflexivity.
Qed.

(** X6: a drain leaves the buffer as the constructor builds it for the
    same two selectors, hands over exactly [size] items, and a second
    drain right after it appends nothing. *)
Theorem drain_resets b out out2 :
  fst (pop_list b out) = Buffer_new (m_ePushType b) (m_ePopType b)
  /\ length (snd (pop_list b out)) = length out + size b
  /\ pop_list (fst (pop_list b out)) out2 = (fst (pop_list b out), out2).
Proof.
  destruct b as [p q d]. rewrite pop_list_spec. cbn [fst snd].
  unfold size, Deque.size. cbn [m_ePushType m_ePopType m_buffer].
  repeat split.
  rewrite length_app. destruct q; now rewrite ?length_rev.
Qed.

(** X8: on a non-empty buffer the single pop does not depend on what the
    caller's variable held, delivers an item that was stored in the
    buffer, namely the first one of the drain order, and the deque keeps
    the other items. *)
Theorem pop_nonempty_delivers b (d1 d2 : T) :
  Deque.empty (m_buffer b) = false ->
  pop b d1 = pop b d2
  /\ In (snd (pop b d1)) (m_buffer b)
  /\ pop_order b = snd (pop b d1) :: pop_order (fst (pop b d1)).
Proof.
  destruct b as [p q d]. cbn [m_buffer]. intros Hd. destruct q.
  - destruct d as [|y d]; [discriminate|].
    rewrite !pop_Front_cons. cbn [fst snd]. unfold pop_order.
    cbn [m_ePopType m_buffer]. repeat split. now left.
  - destruct d as [|y d _] using rev_ind; [discriminate|].
    rewrite !pop_Rear_snoc. cbn [fst snd]. unfold pop_order, reverse.
    cbn [m_ePopType m_buffer]. repeat split.
    + apply in_or_app. right. now left.
    + now rewrite rev_unit.
Qed.

(** X9: the pop end only decides the direction of a drain: for the same
    stored items a rear drain delivers the reverse of what a front drain
    delivers, and both deliver every stored item exactly once. *)
Theorem drain_direction p p' d :
  snd (pop_list (mkBuffer p Rear d) [])
  = rev (snd (pop_list (mkBuffer p' Front d) []))
  /\ Permutation (snd (pop_list (mkBuffer p Rear d) [])) d
  /\ snd (pop_list (mkBuffer p' Front d) []) = d.
Proof.
  rewrite !pop_list_spec. cbn [snd app]. repeat split.
  apply Permutation_sym, Permutation_rev.
Qed.

(** X10: draining a freshly constructed buffer after the single pushes
    [p1 .. pn], or after one batch push of them, appends [p1 .. pn] to the
    caller's vector when the two ends differ and [pn .. p1] when they are
    the same. *)
Theorem drain_after_pushes p q ps out :
  let delivered := if same_end p q then rev ps else ps in
  snd (pop_list (pushes ps (Buffer_new p q)) out) = out ++ delivered
  /\ snd (pop_list (push_list (Buffer_new p q) ps) out) = out ++ delivered.
Proof.
  unfold Buffer_new. rewrite pushes_spec, push_list_spec, !pop_list_spec.
  cbn [snd]. destruct p, q; cbn [same_end];
    rewrite ?app_nil_r, ?rev_involutive; split; reflexivity.
Qed.
End MoreProperties.

(** * No item is lost, duplicated or invented *)

Section Conservation.
Variable T : Type.
Implicit Types (b : Buffer T) (c : Call T) (cs : list (Call T)).

Lemma call_CallPop_fst b (x : T) :
  fst (call (CallPop x) b) = fst (pop b x).
Proof. cbn [call]. now destruct (pop b x). Qed.

Lemma call_CallPopList_fst b (out : list T) :
  fst (call (CallPopList out) b) = fst (pop_list b out).
Proof. cbn [call]. now destruct (pop_list b out). Qed.

Lemma call_conserves c b :
  Permutation (m_buffer (fst (call c b)) ++ delivered_data c b)
              (m_buffer b ++ pushed_data c).
Proof.
  destruct b as [p q d], c as [x | xs | x | out |].
  - cbn [call fst delivered_data pushed_data]. rewrite push_spec.
    cbn [m_buffer]. rewrite app_nil_r.
    destruct p; [apply Permutation_cons_append | reflexivity].
  - cbn [call fst delivered_data pushed_data]. rewrite push_list_spec.
    cbn [m_buffer]. rewrite app_nil_r. destruct p; [|reflexivity].
    rewrite Permutation_app_comm. apply Permutation_app_head.
    apply Permutation_sym, Permutation_rev.
  - rewrite call_CallPop_fst. cbn [delivered_data pushed_data m_buffer].
    rewrite app_nil_r. destruct d as [|y d]; [reflexivity|]. destruct q.
    + rewrite pop_Front_cons. cbn [fst snd m_buffer Deque.empty negb].
      apply Permutation_sym, Permutation_cons_append.
    + destruct (@exists_last T (y :: d)) as (d' & z & ->); [discriminate|].
      rewrite pop_Rear_snoc, empty_snoc. reflexivity.
  - rewrite call_CallPopList_fst. cbn [delivered_data pushed_data].
    rewrite pop_list_spec. cbn [fst snd m_buffer app].
    rewrite skipn_app, skipn_all, Nat.sub_diag, app_nil_r. cbn [skipn app].
    destruct q; [reflexivity | apply Permutation_sym, Permutation_rev].
  - reflexivity.
Qed.

(** X7: over any sequence of calls started in any state, the items still
    stored at the end together with all items handed back to the caller
    are, up to order, exactly the items stored at the start together with
    all items pushed: nothing is lost, duplicated or invented. *)
Theorem run_conserves_items cs : forall b,
  Permutation
    (m_buffer (fst (run cs b)) ++ delivered_data_total cs b)
    (m_buffer b ++ pushed_data_total cs).
Proof.
  induction cs as [|c cs IH]; intros b.
  - reflexivity.
  - rewrite run_cons.
    cbn [fst delivered_data_total pushed_data_total].
    rewrite Permutation_app_swap_app, (IH (fst (call c b))).
    rewrite app_assoc, (Permutation_app_comm (delivered_data c b)).
    rewrite call_conserves. now rewrite app_assoc.
Qed.
End Conservation.

(** * Concrete instances of the further properties *)

Lemma stack_round_trip_witness :
  let b := pushes [8; 9]%Z (Buffer_new Front Front) in
  m_ePushType b = m_ePopType b
  /\ length [0; 0; 0]%Z = length [1; 2; 3]%Z
  /\ pops [0; 0; 0]%Z (pushes [1; 2; 3]%Z b) = (b, [3; 2; 1]%Z).
Proof.
  intros b. split; [reflexivity|]. split; [reflexivity|].
  apply (@stack_round_trip Z b [1; 2; 3]%Z [0; 0; 0]%Z); reflexivity.
Defined.

Lemma queue_order_any_state_witness :
  let b := pushes [8; 9]%Z (Buffer_new Front Rear) in
  m_ePushType b <> m_ePopType b
  /\ length [0; 0; 0; 0]%Z = size b + length [1; 2]%Z
  /\ pops [0; 0; 0; 0]%Z (pushes [1; 2]%Z b)
     = (Buffer_new Front Rear, [8; 9; 1; 2]%Z).
Proof.
  intros b. split; [discriminate|]. split; [reflexivity|].
  apply (@queue_order_any_state Z b [1; 2]%Z [0; 0; 0; 0]%Z);
    [discriminate | reflexivity].
Defined.

Lemma pop_after_push_commutes_witness :
  let b := pushes [8; 9]%Z Buffer_default in
  m_ePushType b <> m_ePopType b
  /\ Deque.empty (m_buffer b) = false
  /\ pop (push b 1%Z) 0%Z = (push (fst (pop b 0%Z)) 1%Z, 8%Z).
Proof.
  intros b. split; [discriminate|]. split; [reflexivity|].
  apply (@pop_after_push_commutes Z b 1%Z 0%Z); [discriminate | reflexivity].
Defined.

Lemma pop_nonempty_delivers_witness :
  let b := pushes [8; 9]%Z (Buffer_new Rear Rear) in
  Deque.empty (m_buffer b) = false
  /\ pop b 0%Z = pop b 5%Z
  /\ In (snd (pop b 0%Z)) (m_buffer b).
Proof.
  intros b. split; [reflexivity|].
  destruct (@pop_nonempty_delivers Z b 0%Z 5%Z eq_refl) as (H1 & H2 & _).
  split; assumption.
Defined.
